(** * GF(2^127) arithmetic of [gf2p127.h], embedded and verified

    The header implements the field GF(2)[x] / (x^127 + x^63 + 1) on SSE
    registers.  A register is modelled by its two 64-bit lanes (as [Z], with the
    wrap-around of every lane operation written out), the intrinsics by their
    documented semantics, and every function of the header by a definition of
    the same name using the same sequence of intrinsics. *)

From Stdlib Require Import ZArith Lia Bool List String Ascii Btauto DecimalString.
From coqutil Require Import Z.bitblast.
Import ListNotations.
Local Open Scope Z_scope.

(** ** Registers *)

(** [__m128i]: lane [q0] holds bits 0..63, lane [q1] holds bits 64..127. *)
Record m128i : Type := mk128 { q0 : Z; q1 : Z }.

Definition gf2p127_t : Type := m128i.

(** The typing invariant of a register: both lanes are 64-bit words. *)
Definition wf128 (a : m128i) : Prop :=
  0 <= q0 a < 2 ^ 64 /\ 0 <= q1 a < 2 ^ 64.

(** The register read as one 128-bit integer (the cast [(__uint128_t)m]). *)
Definition to_Z128 (a : m128i) : Z := Z.lor (q0 a) (Z.shiftl (q1 a) 64).

(** The low 128 bits of an integer, stored in a register. *)
Definition of_Z128 (x : Z) : m128i :=
  mk128 (x mod 2 ^ 64) (Z.shiftr x 64 mod 2 ^ 64).

(** The representation invariant of a field element: bit 127 is clear. *)
Definition canonical (a : gf2p127_t) : Prop := Z.testbit (to_Z128 a) 127 = false.

Definition canonicalb (a : gf2p127_t) : bool := negb (Z.testbit (to_Z128 a) 127).

(** ** The intrinsics used by the header *)

Module Intrin.

(** A 64-bit pattern read as the signed [__int64] the intrinsic returns. *)
Definition to_int64 (x : Z) : Z := (x + 2 ^ 63) mod 2 ^ 64 - 2 ^ 63.

Definition _mm_extract_epi64 (a : m128i) (ndx : Z) : Z :=
  to_int64 (if Z.testbit ndx 0 then q1 a else q0 a).

Definition _mm_setzero_si128 : m128i := mk128 0 0.

(** The 32-bit pattern of the [int] goes to the low dword, the rest is 0. *)
Definition _mm_cvtsi32_si128 (a : Z) : m128i := mk128 (a mod 2 ^ 32) 0.

Definition _mm_slli_epi64 (a : m128i) (count : Z) : m128i :=
  if count >? 63 then mk128 0 0
  else mk128 (Z.shiftl (q0 a) count mod 2 ^ 64)
             (Z.shiftl (q1 a) count mod 2 ^ 64).

Definition _mm_srli_epi64 (a : m128i) (count : Z) : m128i :=
  if count >? 63 then mk128 0 0
  else mk128 (Z.shiftr (q0 a) count) (Z.shiftr (q1 a) count).

(** Byte shifts of the whole register. *)
Definition _mm_slli_si128 (a : m128i) (imm8 : Z) : m128i :=
  let n := if imm8 >? 15 then 16 else imm8 in
  of_Z128 (Z.shiftl (to_Z128 a) (8 * n)).

Definition _mm_srli_si128 (a : m128i) (imm8 : Z) : m128i :=
  let n := if imm8 >? 15 then 16 else imm8 in
  of_Z128 (Z.shiftr (to_Z128 a) (8 * n)).

Definition _mm_or_si128 (a b : m128i) : m128i :=
  mk128 (Z.lor (q0 a) (q0 b)) (Z.lor (q1 a) (q1 b)).

Definition _mm_xor_si128 (a b : m128i) : m128i :=
  mk128 (Z.lxor (q0 a) (q0 b)) (Z.lxor (q1 a) (q1 b)).

Definition _mm_unpacklo_epi64 (a b : m128i) : m128i := mk128 (q0 a) (q0 b).

Definition _mm_unpackhi_epi64 (a b : m128i) : m128i := mk128 (q1 a) (q1 b).

(** The macro [_MM_SHUFFLE(z, y, x, w)]. *)
Definition _MM_SHUFFLE (z y x w : Z) : Z :=
  Z.lor (Z.lor (Z.lor (Z.shiftl z 6) (Z.shiftl y 4)) (Z.shiftl x 2)) w.

(** The [i]-th 32-bit element of a register. *)
Definition dword (a : m128i) (i : Z) : Z :=
  Z.shiftr (to_Z128 a) (32 * i) mod 2 ^ 32.

(** Element [k] of the result is the element of [a] selected by bits
    [2k+1 : 2k] of the immediate. *)
Definition _mm_shuffle_epi32 (a : m128i) (imm8 : Z) : m128i :=
  let sel k := dword a (Z.land (Z.shiftr imm8 (2 * k)) 3) in
  mk128 (Z.lor (sel 0) (Z.shiftl (sel 1) 32))
        (Z.lor (sel 2) (Z.shiftl (sel 3) 32)).

(** [a:b] concatenated, shifted right by [imm8] bytes, low 128 bits kept. *)
Definition _mm_alignr_epi8 (a b : m128i) (imm8 : Z) : m128i :=
  of_Z128 (Z.shiftr (Z.lor (Z.shiftl (to_Z128 a) 128) (to_Z128 b)) (8 * imm8)).

(** Carry-less product of two 64-bit words: for every set bit [i] of [x] a
    copy of [y] shifted by [i] is XORed in, so bit [k] of the result is the
    XOR over [i + j = k] of [x[i] AND y[j]]. *)
Fixpoint clmul_loop (n : nat) (x y : Z) : Z :=
  match n with
  | O => 0
  | S k =>
      Z.lxor (clmul_loop k x y)
             (if Z.testbit x (Z.of_nat k) then Z.shiftl y (Z.of_nat k) else 0)
  end.

Definition clmul64 (x y : Z) : Z := clmul_loop 64 x y.

(** Bit 0 of the immediate selects the lane of [a], bit 4 the lane of [b]. *)
Definition _mm_clmulepi64_si128 (a b : m128i) (imm8 : Z) : m128i :=
  let t1 := if Z.testbit imm8 0 then q1 a else q0 a in
  let t2 := if Z.testbit imm8 4 then q1 b else q0 b in
  of_Z128 (clmul64 t1 t2).

End Intrin.

Import Intrin.

(** ** The formatted output used by the header *)

Module Fmt.

Definition digit_char (d : Z) : ascii :=
  nth (Z.to_nat d) (list_ascii_of_string "0123456789abcdef") "?"%char.

(** The digits of an unsigned number, least significant produced first and
    stored in front of what is already there; at least one digit. *)
Fixpoint utoa (fuel : nat) (base x : Z) (acc : list ascii) : list ascii :=
  match fuel with
  | O => acc
  | S f =>
      let acc' := digit_char (x mod base) :: acc in
      if x / base =? 0 then acc' else utoa f base (x / base) acc'
  end.

(** A precision [.p] on an integer conversion: at least [p] digits, zeros
    in front. *)
Definition zero_pad (p : nat) (ds : list ascii) : list ascii :=
  List.repeat "0"%char (p - List.length ds) ++ ds.

(** [%.<p>llx]: the argument is read as an [unsigned long long]. *)
Definition fmt_llx (p : nat) (x : Z) : list ascii :=
  zero_pad p (utoa 16 16 (x mod 2 ^ 64) []).

(** [%i] for an [int]. *)
Definition fmt_i (x : Z) : list ascii :=
  if x <? 0 then "-"%char :: utoa 10 10 (- x) [] else utoa 10 10 x [].

End Fmt.

Import Fmt.

(** ** The functions of [gf2p127.h] *)

Definition gf2p127_eq (a b : gf2p127_t) : bool :=
  let lo := _mm_extract_epi64 a 0 =? _mm_extract_epi64 b 0 in
  let hi := _mm_extract_epi64 a 1 =? _mm_extract_epi64 b 1 in
  lo && hi.

Definition gf2p127_zero : gf2p127_t := _mm_setzero_si128.

Definition gf2p127_from_int (a : Z) : gf2p127_t := _mm_cvtsi32_si128 a.

Definition gf2p127_mul_bit (a : gf2p127_t) (bit : bool) : gf2p127_t :=
  _mm_slli_epi64 a (Z.b2z (negb bit) * 64).

Definition gf2p127_add (a b : gf2p127_t) : gf2p127_t := _mm_xor_si128 a b.

Definition gf2p127_mul_00 (a : gf2p127_t) : gf2p127_t := _mm_setzero_si128.

Definition gf2p127_mul_01 (a : gf2p127_t) : gf2p127_t := a.

Definition gf2p127_mul_10 (a : gf2p127_t) : gf2p127_t :=
  let sl := _mm_slli_epi64 a 1 in
  let sr := _mm_srli_epi64 a 63 in
  let c := _mm_or_si128 sl (_mm_slli_si128 sr 8) in
  let over := _mm_srli_epi64 sl 63 in
  let x127 := _mm_slli_epi64 over 63 in
  let x127x63 := _mm_shuffle_epi32 x127 (_MM_SHUFFLE 3 2 3 2) in
  let one := _mm_shuffle_epi32 over (_MM_SHUFFLE 3 3 3 2) in
  _mm_xor_si128 (_mm_xor_si128 c x127x63) one.

Definition gf2p127_mul_11 (a : gf2p127_t) : gf2p127_t :=
  let mul01 := gf2p127_mul_01 a in
  let mul10 := gf2p127_mul_10 a in
  _mm_xor_si128 mul01 mul10.

(** The Karatsuba stage of [gf2p127_mul]: the pair [(lo, hi)] before the
    reduction. *)
Definition gf2p127_mul_karatsuba (a b : gf2p127_t) : m128i * m128i :=
  let tmp := _mm_xor_si128 (_mm_unpacklo_epi64 a b) (_mm_unpackhi_epi64 a b) in
  let tmp := _mm_clmulepi64_si128 tmp tmp 0x10 in
  let lo := _mm_clmulepi64_si128 a b 0x00 in
  let hi := _mm_clmulepi64_si128 a b 0x11 in
  let tmp := _mm_xor_si128 tmp (_mm_xor_si128 lo hi) in
  let lo := _mm_xor_si128 lo (_mm_slli_si128 tmp 8) in
  let hi := _mm_xor_si128 hi (_mm_srli_si128 tmp 8) in
  (lo, hi).

(** The reduction stage of [gf2p127_mul]. *)
Definition gf2p127_mul_reduce (lo hi : m128i) : gf2p127_t :=
  let tmp := _mm_alignr_epi8 hi lo 8 in
  let tmp := _mm_xor_si128 tmp hi in
  let hi := _mm_slli_epi64 hi 1 in
  let lo := _mm_xor_si128 lo hi in
  let hi := _mm_unpackhi_epi64 hi tmp in
  let lo := _mm_xor_si128 lo hi in
  let tmp := _mm_srli_epi64 tmp 63 in
  let lo := _mm_xor_si128 lo tmp in
  let hi := _mm_unpacklo_epi64 tmp tmp in
  let lo := _mm_xor_si128 lo (_mm_slli_epi64 hi 63) in
  lo.

Definition gf2p127_mul (a b : gf2p127_t) : gf2p127_t :=
  let '(lo, hi) := gf2p127_mul_karatsuba a b in
  gf2p127_mul_reduce lo hi.

(** The loop of [gf2p127_show]: [n] iterations left, [k] the loop counter,
    [a] the shifted value, [str] the text written so far. *)
Fixpoint gf2p127_show_loop (n : nat) (k a : Z) (str : list ascii) : list ascii :=
  match n with
  | O => str
  | S n' =>
      let str :=
        if negb (Z.land a 1 =? 0)
        then str ++ list_ascii_of_string " + 2^" ++ fmt_i k
        else str in
      gf2p127_show_loop n' (k + 1) (Z.shiftr a 1) str
  end.

Definition gf2p127_show (m : gf2p127_t) : list ascii :=
  let a := to_Z128 m in
  let str :=
    if negb (Z.land a 1 =? 0) then list_ascii_of_string "1"
    else list_ascii_of_string "0" in
  let a := Z.shiftr a 1 in
  gf2p127_show_loop 127 1 a str.

Definition gf2p127_hex (m : gf2p127_t) : list ascii :=
  fmt_llx 16 (_mm_extract_epi64 m 1) ++ fmt_llx 16 (_mm_extract_epi64 m 0).

(** ** Reference definitions

    What the operations are meant to compute, independently of the code:
    polynomials over GF(2) are non-negative integers, bit [i] being the
    coefficient of [x^i]; addition is [Z.lxor]. *)

Module Poly.

(** The product of two polynomials, by recursion on the bits of the first:
    [(1 + x p) b = b + x (p b)] and [(x p) b = x (p b)]. *)
Fixpoint pmul_pos (p : positive) (b : Z) : Z :=
  match p with
  | xH => b
  | xO p' => Z.shiftl (pmul_pos p' b) 1
  | xI p' => Z.lxor b (Z.shiftl (pmul_pos p' b) 1)
  end.

Definition pmul (a b : Z) : Z :=
  match a with
  | Zpos p => pmul_pos p b
  | _ => 0
  end.

(** The modulus f(x) = x^127 + x^63 + 1. *)
Definition modulus : Z := 2 ^ 127 + 2 ^ 63 + 1.

(** Congruence modulo f: the difference is a multiple of f. *)
Definition pcong (u v : Z) : Prop :=
  exists q, 0 <= q /\ Z.lxor u v = pmul q modulus.

(** Remainder modulo f by long division: the bits 127 + n - 1, ..., 127 are
    cleared from the top, each with a shifted copy of f. *)
Fixpoint pmod_loop (n : nat) (u : Z) : Z :=
  match n with
  | O => u
  | S k =>
      pmod_loop k
        (if Z.testbit u (127 + Z.of_nat k)
         then Z.lxor u (Z.shiftl modulus (Z.of_nat k)) else u)
  end.

Definition pmod (u : Z) : Z := pmod_loop (Z.to_nat (Z.log2 u - 126)) u.

End Poly.

Import Poly.

(** Bit [k] of a carry-less product, as the XOR over [i < n] of
    [x[i] AND y[k - i]]. *)
Fixpoint conv_bit (n : nat) (x y : Z) (k : Z) : bool :=
  match n with
  | O => false
  | S i =>
      xorb (conv_bit i x y k)
           (Z.testbit x (Z.of_nat i) && Z.testbit y (k - Z.of_nat i))
  end.

(** The multiple of f that the reduction stage of [gf2p127_mul] removes from
    the 256-bit product [(lo, hi)]. *)
Definition reduce_quotient (lo hi : m128i) : Z :=
  Z.lxor (Z.lxor (Z.shiftl (to_Z128 hi) 1) (Z.shiftl (q1 hi) 1))
         (Z.shiftr (Z.lxor (q1 lo) (q0 hi)) 63).

(** The doubling step as the design describes it: every coefficient moves up
    one degree, the top bit of the low half becoming the bottom bit of the
    high half; when bit 126 of the argument was set, 1 is XORed into bit 0
    and into bit 63 of the low half and the degree-127 bit is cleared. *)
Definition double_spec (a : gf2p127_t) : gf2p127_t :=
  let shifted :=
    mk128 (Z.shiftl (q0 a) 1 mod 2 ^ 64)
          (Z.lor (Z.shiftl (q1 a) 1 mod 2 ^ 64) (Z.shiftr (q0 a) 63)) in
  if Z.testbit (to_Z128 a) 126
  then mk128 (Z.lxor (Z.lxor (q0 shifted) 1) (2 ^ 63))
             (Z.clearbit (q1 shifted) 63)
  else shifted.

(** The text of [show] as the design describes it: a leading 1 or 0 for bit 0,
    then one term for each set bit [k >= 1], in increasing order. *)
Definition show_term (k : Z) : list ascii :=
  list_ascii_of_string " + 2^" ++ list_ascii_of_string
    (DecimalString.NilZero.string_of_int (Z.to_int k)).

Definition bit_positions (from : Z) (n : nat) : list Z :=
  map (fun i => from + Z.of_nat i) (seq 0 n).

Definition show_spec (a : gf2p127_t) : list ascii :=
  (if Z.testbit (to_Z128 a) 0 then ["1"%char] else ["0"%char])
    ++ List.concat (map show_term
                 (filter (Z.testbit (to_Z128 a)) (bit_positions 1 127))).

(** [n] hexadecimal digits of [x], most significant first. *)
Fixpoint hex_fixed (n : nat) (x : Z) : list ascii :=
  match n with
  | O => []
  | S k => hex_fixed k (x / 16) ++ [digit_char (x mod 16)]
  end.

(** Reading hexadecimal text back. *)
Definition hex_value (c : ascii) : option Z :=
  let n := Z.of_nat (nat_of_ascii c) in
  if (48 <=? n) && (n <=? 57) then Some (n - 48)
  else if (97 <=? n) && (n <=? 102) then Some (n - 87)
  else if (65 <=? n) && (n <=? 70) then Some (n - 55)
  else None.

Fixpoint parse_hex_word (acc : Z) (s : list ascii) : option Z :=
  match s with
  | [] => Some acc
  | c :: s' =>
      match hex_value c with
      | Some d => parse_hex_word (16 * acc + d) s'
      | None => None
      end
  end.

(** 32 digits, the first 16 being the high word, the last 16 the low word. *)
Definition parse_hex (s : list ascii) : option gf2p127_t :=
  if (List.length s =? 32)%nat then
    match parse_hex_word 0 (firstn 16 s), parse_hex_word 0 (skipn 16 s) with
    | Some h, Some l => Some (mk128 l h)
    | _, _ => None
    end
  else None.

(** * Proofs *)

(** ** Bit-level reasoning *)

Lemma testbit_high x k l :
  0 <= x -> x < 2 ^ k -> k <= l -> Z.testbit x l = false.
Proof.
  intros Hx Hk Hl.
  destruct (Z.eq_dec x 0) as [->|Hn]; [apply Z.testbit_0_l|].
  apply Z.bits_above_log2; [lia|].
  assert (0 <= k)
    by (destruct (Z.le_gt_cases 0 k); [assumption|rewrite Z.pow_neg_r in Hk; lia]).
  assert (Z.log2 x < k) by (apply Z.log2_lt_pow2; lia). lia.
Qed.

Lemma bound_of_bits x k :
  0 <= x -> 0 <= k -> (forall l, k <= l -> Z.testbit x l = false) -> x < 2 ^ k.
Proof.
  intros Hx Hk Hb.
  destruct (Z.eq_dec x 0) as [->|Hn]; [apply Z.pow_pos_nonneg; lia|].
  apply Z.log2_lt_pow2; [lia|].
  destruct (Z.lt_ge_cases (Z.log2 x) k) as [|Hge]; [assumption|].
  specialize (Hb _ Hge). rewrite Z.bit_log2 in Hb by lia. discriminate.
Qed.

Lemma testbit_1 i : Z.testbit 1 i = (i =? 0).
Proof.
  destruct (Z.ltb_spec i 0).
  - rewrite Z.testbit_neg_r by lia. symmetry. apply Z.eqb_neq. lia.
  - change 1 with (2 ^ 0). rewrite Z.pow2_bits_eqb, Z.eqb_sym by lia.
    reflexivity.
Qed.

Create Rewrite HintDb bitsdb.
#[local] Hint Rewrite Z.lor_spec Z.lxor_spec Z.land_spec Z.testbit_0_l
  Z.shiftl_spec' Z.shiftr_spec' testbit_1 : bitsdb.
#[local] Hint Rewrite Z.testbit_mod_pow2 Z.pow2_bits_eqb using lia : bitsdb.

Ltac destruct_cmps :=
  repeat match goal with
         | |- context [ ?a <? ?b ] => destruct (Z.ltb_spec a b); try (exfalso; lia)
         | |- context [ ?a =? ?b ] => destruct (Z.eqb_spec a b); try (exfalso; lia)
         end.

Ltac kill_bits :=
  repeat match goal with
         | |- context [Z.testbit ?x ?l] => rewrite (Z.testbit_neg_r x l) by lia
         | H : ?x < 2 ^ ?k |- context [Z.testbit ?x ?l] =>
             rewrite (testbit_high x k l) by lia
         end.

Ltac undecided a b :=
  tryif first [assert (a < b) by lia | assert (b <= a) by lia]
  then fail else idtac.

Ltac split_bit :=
  match goal with
  | |- context [Z.testbit ?x ?l] =>
      undecided l 0; destruct (Z.lt_ge_cases l 0)
  | H : ?x < 2 ^ ?k |- context [Z.testbit ?x ?l] =>
      undecided l k; destruct (Z.lt_ge_cases l k)
  end.

Ltac finish_bits :=
  kill_bits; first [reflexivity | btauto | split_bit; finish_bits | idtac].

Ltac bits_core :=
  autorewrite with bitsdb;
  Z.discover_equal_testbit_indices;
  destruct_cmps;
  finish_bits.

(** Equality of two integers, bit by bit. *)
Ltac bits := eapply Z.bits_inj'; intros ?i ?Hi; bits_core.

(** A bound [x < 2 ^ k], bit by bit. *)
Ltac bits_lt :=
  apply bound_of_bits; [auto 12 with nonneg | lia | intros ?i ?Hi; bits_core].

Ltac lanes a :=
  destruct a as [?x ?y]; unfold wf128, canonical, to_Z128 in *; cbn [q0 q1] in *;
  repeat match goal with H : _ /\ _ |- _ => destruct H end.

Lemma lxor_nonneg a b : 0 <= a -> 0 <= b -> 0 <= Z.lxor a b.
Proof. intros. apply Z.lxor_nonneg. tauto. Qed.

Lemma lor_nonneg a b : 0 <= a -> 0 <= b -> 0 <= Z.lor a b.
Proof. intros. apply Z.lor_nonneg. tauto. Qed.

Lemma shiftl_nonneg a n : 0 <= a -> 0 <= Z.shiftl a n.
Proof. intros. apply Z.shiftl_nonneg. assumption. Qed.

Lemma shiftr_nonneg a n : 0 <= a -> 0 <= Z.shiftr a n.
Proof. intros. apply Z.shiftr_nonneg. assumption. Qed.

Lemma mod_pow2_nonneg a k : 0 <= k -> 0 <= a mod 2 ^ k.
Proof. intros. apply Z.mod_pos_bound. apply Z.pow_pos_nonneg; lia. Qed.

Lemma mod_pow2_lt a k : 0 <= k -> a mod 2 ^ k < 2 ^ k.
Proof. intros. apply Z.mod_pos_bound. apply Z.pow_pos_nonneg; lia. Qed.

Create HintDb nonneg.
#[local] Hint Resolve lxor_nonneg lor_nonneg shiftl_nonneg shiftr_nonneg
  mod_pow2_nonneg mod_pow2_lt : nonneg.
#[local] Hint Extern 2 (_ <= _) => lia : nonneg.
#[local] Hint Extern 2 (_ < _) => lia : nonneg.

Lemma lxor_lt a b k : 0 <= a -> a < 2 ^ k -> 0 <= b -> b < 2 ^ k -> 0 <= k ->
  Z.lxor a b < 2 ^ k.
Proof. intros. bits_lt. Qed.

(** ** Registers as 128-bit integers *)

Lemma to_Z128_range a : wf128 a -> 0 <= to_Z128 a < 2 ^ 128.
Proof.
  intros H. lanes a. split; [auto with nonneg|]. bits_lt.
Qed.

Lemma to_Z128_inj a b : wf128 a -> wf128 b -> to_Z128 a = to_Z128 b -> a = b.
Proof.
  intros Ha Hb E. lanes a. lanes b. f_equal.
  - assert (E' : Z.lor x (Z.shiftl y 64) mod 2 ^ 64 = Z.lor x0 (Z.shiftl y0 64) mod 2 ^ 64)
      by (rewrite E; reflexivity).
    replace (Z.lor x (Z.shiftl y 64) mod 2 ^ 64) with x in E' by bits.
    replace (Z.lor x0 (Z.shiftl y0 64) mod 2 ^ 64) with x0 in E' by bits.
    assumption.
  - assert (E' : Z.shiftr (Z.lor x (Z.shiftl y 64)) 64 = Z.shiftr (Z.lor x0 (Z.shiftl y0 64)) 64)
      by (rewrite E; reflexivity).
    replace (Z.shiftr (Z.lor x (Z.shiftl y 64)) 64) with y in E' by bits.
    replace (Z.shiftr (Z.lor x0 (Z.shiftl y0 64)) 64) with y0 in E' by bits.
    assumption.
Qed.

Lemma of_Z128_wf x : wf128 (of_Z128 x).
Proof. unfold wf128, of_Z128; cbn [q0 q1]. split; apply Z.mod_pos_bound; lia. Qed.

Lemma to_of_Z128 x : 0 <= x -> x < 2 ^ 128 -> to_Z128 (of_Z128 x) = x.
Proof. intros. unfold to_Z128, of_Z128; cbn [q0 q1]. bits. Qed.

Lemma of_to_Z128 a : wf128 a -> of_Z128 (to_Z128 a) = a.
Proof.
  intros H. apply to_Z128_inj; [apply of_Z128_wf|assumption|].
  apply to_of_Z128; apply to_Z128_range; assumption.
Qed.

Lemma canonical_iff a : wf128 a -> canonical a <-> to_Z128 a < 2 ^ 127.
Proof.
  intros H. split; intros C.
  - unfold canonical in C. pose proof (to_Z128_range a H) as [R0 R1].
    apply bound_of_bits; [assumption|lia|]. intros l Hl.
    destruct (Z.eq_dec l 127) as [->|]; [assumption|].
    apply (testbit_high _ 128); lia.
  - apply (testbit_high _ 127); [apply to_Z128_range; assumption|assumption|lia].
Qed.

Lemma canonical_lane a : wf128 a -> canonical a -> q1 a < 2 ^ 63.
Proof.
  intros H C. lanes a. apply bound_of_bits; [lia|lia|]. intros l Hl.
  destruct (Z.eq_dec l 63) as [->|].
  - rewrite Z.lor_spec, Z.shiftl_spec in C by lia.
    apply orb_false_iff in C. apply C.
  - apply (testbit_high _ 64); lia.
Qed.

(** ** Algebra of polynomial products *)

Section PolyAlgebra.

Lemma pmul_pos_nonneg p b : 0 <= b -> 0 <= pmul_pos p b.
Proof. intros Hb. induction p; cbn [pmul_pos]; auto with nonneg. Qed.

Lemma pmul_nonneg a b : 0 <= b -> 0 <= pmul a b.
Proof.
  intros Hb. destruct a; cbn [pmul]; [lia|apply pmul_pos_nonneg; assumption|lia].
Qed.

Lemma pmul_pos_0_r p : pmul_pos p 0 = 0.
Proof. induction p; cbn [pmul_pos]; rewrite ?IHp; reflexivity. Qed.

Lemma pmul_pos_1_r p : pmul_pos p 1 = Zpos p.
Proof.
  induction p; cbn [pmul_pos]; rewrite ?IHp; try reflexivity.
Qed.

Lemma pmul_pos_lxor_r p b c :
  pmul_pos p (Z.lxor b c) = Z.lxor (pmul_pos p b) (pmul_pos p c).
Proof.
  induction p; cbn [pmul_pos]; rewrite ?IHp; try reflexivity; bits.
Qed.

Lemma pmul_pos_shiftl_r p b k :
  0 <= k -> pmul_pos p (Z.shiftl b k) = Z.shiftl (pmul_pos p b) k.
Proof.
  intros Hk. induction p; cbn [pmul_pos]; rewrite ?IHp; try reflexivity; bits.
Qed.

Lemma pmul_pos_comm p q : pmul_pos p (Zpos q) = pmul_pos q (Zpos p).
Proof.
  induction p; cbn [pmul_pos].
  - rewrite IHp, <- pmul_pos_shiftl_r by lia.
    change (Zpos p~1) with (Z.lxor 1 (Z.shiftl (Zpos p) 1)).
    rewrite pmul_pos_lxor_r, pmul_pos_1_r. reflexivity.
  - rewrite IHp, <- pmul_pos_shiftl_r by lia. reflexivity.
  - rewrite pmul_pos_1_r. reflexivity.
Qed.

Lemma pmul_comm a b : 0 <= a -> 0 <= b -> pmul a b = pmul b a.
Proof.
  intros Ha Hb. destruct a, b; cbn [pmul]; try lia;
    rewrite ?pmul_pos_0_r; try reflexivity.
  apply pmul_pos_comm.
Qed.

Lemma pmul_0_r a : pmul a 0 = 0.
Proof. destruct a; cbn [pmul]; rewrite ?pmul_pos_0_r; reflexivity. Qed.

Lemma pmul_1_l b : pmul 1 b = b.
Proof. reflexivity. Qed.

Lemma pmul_1_r a : 0 <= a -> pmul a 1 = a.
Proof. intros. rewrite pmul_comm by lia. reflexivity. Qed.

Lemma pmul_lxor_r a b c :
  pmul a (Z.lxor b c) = Z.lxor (pmul a b) (pmul a c).
Proof. destruct a; cbn [pmul]; try reflexivity. apply pmul_pos_lxor_r. Qed.

Lemma pmul_lxor_l a b c : 0 <= a -> 0 <= b -> 0 <= c ->
  pmul (Z.lxor a b) c = Z.lxor (pmul a c) (pmul b c).
Proof.
  intros. rewrite (pmul_comm (Z.lxor a b)), pmul_lxor_r by auto with nonneg.
  rewrite (pmul_comm c a), (pmul_comm c b) by lia. reflexivity.
Qed.

Lemma pmul_shiftl_r a b k :
  0 <= k -> pmul a (Z.shiftl b k) = Z.shiftl (pmul a b) k.
Proof.
  intros. destruct a; cbn [pmul]; rewrite ?Z.shiftl_0_l; try reflexivity.
  apply pmul_pos_shiftl_r. assumption.
Qed.

Lemma pmul_shiftl_l a b k : 0 <= a -> 0 <= b -> 0 <= k ->
  pmul (Z.shiftl a k) b = Z.shiftl (pmul a b) k.
Proof.
  intros. rewrite (pmul_comm (Z.shiftl a k)), pmul_shiftl_r by auto with nonneg.
  rewrite (pmul_comm b a) by lia. reflexivity.
Qed.

(** Multiplying by [x^k] is a shift. *)
Lemma pmul_pow2_r a k : 0 <= a -> 0 <= k -> pmul a (2 ^ k) = Z.shiftl a k.
Proof.
  intros. rewrite <- (Z.shiftl_1_l k), pmul_shiftl_r, pmul_1_r by lia.
  reflexivity.
Qed.

Lemma pmul_pow2_l b k : 0 <= b -> 0 <= k -> pmul (2 ^ k) b = Z.shiftl b k.
Proof. intros. rewrite pmul_comm, pmul_pow2_r by lia. reflexivity. Qed.

Lemma pmul_pos_lt p b n m :
  Zpos p < 2 ^ n -> 0 <= b -> b < 2 ^ m -> 0 <= n -> 0 <= m ->
  pmul_pos p b < 2 ^ (n + m).
Proof.
  intros Hp Hb Hbm Hn Hm. revert n Hp Hn.
  assert (Hstep : forall n, 0 <= n -> b < 2 ^ (n + m)).
  { intros n Hn. apply Z.lt_le_trans with (2 ^ m); [assumption|].
    apply Z.pow_le_mono_r; lia. }
  induction p; intros n Hp Hn; cbn [pmul_pos].
  - assert (0 < n) by (destruct (Z.eq_dec n 0) as [->|]; [cbn in Hp|]; lia).
    assert (Hp' : Zpos p < 2 ^ (n - 1)).
    { replace n with (Z.succ (n - 1)) in Hp by lia.
      rewrite Z.pow_succ_r in Hp by lia. lia. }
    specialize (IHp (n - 1) Hp' ltac:(lia)).
    pose proof (pmul_pos_nonneg p b Hb).
    apply lxor_lt; auto with nonneg; try lia.
    rewrite Z.shiftl_mul_pow2 by lia.
    replace (n + m) with (Z.succ (n - 1 + m)) by lia.
    rewrite Z.pow_succ_r by lia. lia.
  - assert (0 < n) by (destruct (Z.eq_dec n 0) as [->|]; [cbn in Hp|]; lia).
    assert (Hp' : Zpos p < 2 ^ (n - 1)).
    { replace n with (Z.succ (n - 1)) in Hp by lia.
      rewrite Z.pow_succ_r in Hp by lia. lia. }
    specialize (IHp (n - 1) Hp' ltac:(lia)).
    rewrite Z.shiftl_mul_pow2 by lia.
    replace (n + m) with (Z.succ (n - 1 + m)) by lia.
    rewrite Z.pow_succ_r by lia. lia.
  - apply Hstep; assumption.
Qed.

Lemma pmul_lt a b n m :
  0 <= a -> a < 2 ^ n -> 0 <= b -> b < 2 ^ m -> 0 <= n -> 0 <= m ->
  pmul a b < 2 ^ (n + m).
Proof.
  intros. destruct a; cbn [pmul]; try lia.
  apply pmul_pos_lt; assumption.
Qed.

(** The leading coefficient of a product. *)
Lemma pmul_pos_top p b : 0 < b ->
  Z.testbit (pmul_pos p b) (Z.log2 (Zpos p) + Z.log2 b) = true.
Proof.
  intros Hb. pose proof (Z.log2_nonneg b).
  induction p; cbn [pmul_pos].
  - pose proof (Z.log2_nonneg (Zpos p)).
    replace (Z.log2 (Zpos p~1)) with (Z.succ (Z.log2 (Zpos p))).
    2:{ change (Zpos p~1) with (2 * Zpos p + 1).
        rewrite Z.log2_succ_double by lia. reflexivity. }
    rewrite Z.lxor_spec, Z.shiftl_spec by lia.
    rewrite (Z.bits_above_log2 b) by lia.
    replace (Z.succ (Z.log2 (Zpos p)) + Z.log2 b - 1)
      with (Z.log2 (Zpos p) + Z.log2 b) by lia.
    rewrite IHp. reflexivity.
  - pose proof (Z.log2_nonneg (Zpos p)).
    replace (Z.log2 (Zpos p~0)) with (Z.succ (Z.log2 (Zpos p))).
    2:{ change (Zpos p~0) with (2 * Zpos p).
        rewrite Z.log2_double by lia. reflexivity. }
    rewrite Z.shiftl_spec by lia.
    replace (Z.succ (Z.log2 (Zpos p)) + Z.log2 b - 1)
      with (Z.log2 (Zpos p) + Z.log2 b) by lia.
    assumption.
  - cbn [Z.log2]. rewrite Z.add_0_l. apply Z.bit_log2. assumption.
Qed.

Lemma pmul_ge a b : 0 < a -> 0 < b -> 2 ^ (Z.log2 a + Z.log2 b) <= pmul a b.
Proof.
  intros Ha Hb. destruct a; try lia. cbn [pmul].
  pose proof (pmul_pos_top p b Hb) as T.
  pose proof (pmul_pos_nonneg p b ltac:(lia)) as N.
  pose proof (Z.log2_nonneg (Zpos p)). pose proof (Z.log2_nonneg b).
  destruct (Z.lt_ge_cases (pmul_pos p b) (2 ^ (Z.log2 (Zpos p) + Z.log2 b)))
    as [Hlt|]; [|assumption].
  rewrite (testbit_high _ _ _ N Hlt) in T by lia. discriminate.
Qed.

End PolyAlgebra.

(** ** Congruence modulo f *)

Section Congruence.

Lemma modulus_nonneg : 0 <= modulus.
Proof. cbv. discriminate. Qed.

Lemma modulus_bits : modulus = Z.lxor (Z.lxor (2 ^ 127) (2 ^ 63)) 1.
Proof. reflexivity. Qed.

(** A multiple of f, written with shifts. *)
Lemma pmul_modulus q : 0 <= q ->
  pmul q modulus = Z.lxor (Z.lxor (Z.shiftl q 127) (Z.shiftl q 63)) q.
Proof.
  intros. rewrite modulus_bits, !pmul_lxor_r, !pmul_pow2_r, pmul_1_r by lia.
  reflexivity.
Qed.

Lemma pcong_refl u : pcong u u.
Proof. exists 0. split; [lia|]. rewrite Z.lxor_nilpotent. reflexivity. Qed.

Lemma pcong_sym u v : pcong u v -> pcong v u.
Proof. intros (q & Hq & E). exists q. rewrite Z.lxor_comm. auto. Qed.

Lemma pcong_trans u v w : pcong u v -> pcong v w -> pcong u w.
Proof.
  intros (q & Hq & E) (q' & Hq' & E'). exists (Z.lxor q q').
  split; [auto with nonneg|].
  rewrite pmul_lxor_l, <- E, <- E' by (assumption || apply modulus_nonneg). bits.
Qed.

Lemma pcong_lxor u v u' v' :
  pcong u v -> pcong u' v' -> pcong (Z.lxor u u') (Z.lxor v v').
Proof.
  intros (q & Hq & E) (q' & Hq' & E'). exists (Z.lxor q q').
  split; [auto with nonneg|].
  rewrite pmul_lxor_l, <- E, <- E' by (assumption || apply modulus_nonneg). bits.
Qed.

(** A nonzero multiple of f has degree at least 127. *)
Lemma multiple_small q : 0 <= q -> pmul q modulus < 2 ^ 127 -> q = 0.
Proof.
  intros Hq Hlt. destruct (Z.eq_dec q 0) as [|Hn]; [assumption|].
  pose proof (pmul_ge q modulus ltac:(lia) ltac:(reflexivity)) as G.
  change (Z.log2 modulus) with 127 in G.
  pose proof (Z.log2_nonneg q).
  assert (2 ^ 127 <= 2 ^ (Z.log2 q + 127)) by (apply Z.pow_le_mono_r; lia).
  lia.
Qed.

(** Every class has at most one representative below [2^127]. *)
Lemma pcong_unique r r' :
  0 <= r -> r < 2 ^ 127 -> 0 <= r' -> r' < 2 ^ 127 -> pcong r r' -> r = r'.
Proof.
  intros H0 H1 H0' H1' (q & Hq & E).
  assert (Z.lxor r r' < 2 ^ 127) by (apply lxor_lt; lia).
  rewrite E in H. apply multiple_small in H; [|assumption].
  subst q. cbn [pmul] in E. apply Z.lxor_eq. assumption.
Qed.

End Congruence.

(** ** The carry-less multiplication instruction *)

Section Clmul.

Lemma mod_pow2_succ x k : 0 <= k ->
  x mod 2 ^ (Z.succ k) =
  Z.lxor (x mod 2 ^ k) (if Z.testbit x k then Z.shiftl 1 k else 0).
Proof.
  intros Hk. destruct (Z.testbit x k) eqn:E.
  - eapply Z.bits_inj'; intros i Hi.
    rewrite Z.lxor_spec, !Z.testbit_mod_pow2, Z.shiftl_spec by lia.
    destruct (Z.eq_dec i k) as [->|].
    + rewrite E, Z.sub_diag, Z.ltb_irrefl.
      replace (k <? Z.succ k) with true by (symmetry; apply Z.ltb_lt; lia).
      reflexivity.
    + destruct (Z.ltb_spec i k), (Z.ltb_spec i (Z.succ k)); try lia.
      * rewrite (Z.testbit_neg_r 1 (i - k)) by lia. btauto.
      * change 1 with (2 ^ 0). rewrite Z.pow2_bits_false by lia. reflexivity.
  - eapply Z.bits_inj'; intros i Hi.
    rewrite Z.lxor_spec, !Z.testbit_mod_pow2, Z.testbit_0_l by lia.
    destruct (Z.eq_dec i k) as [->|].
    + rewrite E, Z.ltb_irrefl. btauto.
    + destruct (Z.ltb_spec i k), (Z.ltb_spec i (Z.succ k)); try lia; btauto.
Qed.

(** The instruction computes the XOR-convolution of the bits of its
  operands. *)
Lemma clmul_loop_bits n x y k : 0 <= k ->
Z.testbit (clmul_loop n x y) k = conv_bit n x y k.
Proof.
intros Hk. induction n as [|n IH]; cbn [clmul_loop conv_bit].
- apply Z.testbit_0_l.
- rewrite Z.lxor_spec, IH. f_equal.
  destruct (Z.testbit x (Z.of_nat n)); cbn [andb].
  + apply Z.shiftl_spec. assumption.
  + apply Z.testbit_0_l.
Qed.

Lemma clmul_loop_pmul n x y : 0 <= y ->
  clmul_loop n x y = pmul (x mod 2 ^ Z.of_nat n) y.
Proof.
  intros Hy. induction n as [|n IH].
  - cbn [clmul_loop]. rewrite Z.mod_1_r. reflexivity.
  - cbn [clmul_loop]. rewrite Nat2Z.inj_succ, mod_pow2_succ by lia.
    assert (0 <= x mod 2 ^ Z.of_nat n) by (apply Z.mod_pos_bound; lia).
    rewrite pmul_lxor_l, IH; try assumption.
    + destruct (Z.testbit x (Z.of_nat n)).
      * rewrite Z.shiftl_1_l, pmul_pow2_l by lia. reflexivity.
      * reflexivity.
    + destruct (Z.testbit x (Z.of_nat n)); [apply shiftl_nonneg|]; lia.
Qed.

(** The reference product has the same bits. *)
Lemma pmul_bits n a b k :
  0 <= a -> a < 2 ^ Z.of_nat n -> 0 <= b -> 0 <= k ->
  Z.testbit (pmul a b) k = conv_bit n a b k.
Proof.
  intros. rewrite <- clmul_loop_bits, clmul_loop_pmul by assumption.
  rewrite Z.mod_small by lia. reflexivity.
Qed.

Lemma clmul64_pmul x y :
  0 <= x -> x < 2 ^ 64 -> 0 <= y -> clmul64 x y = pmul x y.
Proof.
  intros. unfold clmul64. rewrite clmul_loop_pmul by assumption.
  change (Z.of_nat 64) with 64. rewrite Z.mod_small by lia. reflexivity.
Qed.

End Clmul.

(** ** The general multiplier *)

Section Mul.

Lemma lor_lxor_lanes x y : 0 <= x -> x < 2 ^ 64 ->
  Z.lor x (Z.shiftl y 64) = Z.lxor x (Z.shiftl y 64).
Proof. intros. bits. Qed.

(** The product of two 128-bit polynomials from the four products of their
    halves. *)
Lemma pmul_lanes a0 a1 b0 b1 :
  0 <= a0 -> a0 < 2 ^ 64 -> 0 <= a1 -> 0 <= b0 -> b0 < 2 ^ 64 -> 0 <= b1 ->
  pmul (Z.lor a0 (Z.shiftl a1 64)) (Z.lor b0 (Z.shiftl b1 64)) =
  Z.lxor (Z.lxor (pmul a0 b0)
                 (Z.shiftl (Z.lxor (pmul a0 b1) (pmul a1 b0)) 64))
         (Z.shiftl (pmul a1 b1) 128).
Proof.
  intros. rewrite !lor_lxor_lanes by assumption.
  rewrite pmul_lxor_l, !pmul_lxor_r by auto with nonneg.
  rewrite !pmul_shiftl_l, !pmul_shiftl_r by auto with nonneg.
  rewrite Z.shiftl_shiftl by lia. change (64 + 64) with 128.
  rewrite Z.shiftl_lxor.
  rewrite !Z.lxor_assoc. reflexivity.
Qed.

(** The single product of the Karatsuba step, in the four products of the
    halves. *)
Lemma karatsuba_product a0 a1 b0 b1 :
  0 <= a0 -> 0 <= a1 -> 0 <= b0 -> 0 <= b1 ->
  pmul (Z.lxor a0 a1) (Z.lxor b0 b1) =
  Z.lxor (Z.lxor (pmul a0 b1) (pmul a1 b0)) (Z.lxor (pmul a0 b0) (pmul a1 b1)).
Proof.
  intros. rewrite pmul_lxor_l, !pmul_lxor_r by auto with nonneg. bits.
Qed.

Lemma pmul_range a b n m :
  0 <= a -> a < 2 ^ n -> 0 <= b -> b < 2 ^ m -> 0 <= n -> 0 <= m ->
  0 <= pmul a b /\ pmul a b < 2 ^ (n + m).
Proof.
  intros. split; [apply pmul_nonneg; assumption|apply pmul_lt; assumption].
Qed.

(** The first stage leaves the 256-bit product in [(lo, hi)]. *)
Lemma karatsuba_correct a b : wf128 a -> wf128 b ->
  wf128 (fst (gf2p127_mul_karatsuba a b)) /\
  wf128 (snd (gf2p127_mul_karatsuba a b)) /\
  Z.lxor (to_Z128 (fst (gf2p127_mul_karatsuba a b)))
         (Z.shiftl (to_Z128 (snd (gf2p127_mul_karatsuba a b))) 128)
  = pmul (to_Z128 a) (to_Z128 b) /\
  (canonical a -> canonical b ->
   to_Z128 (snd (gf2p127_mul_karatsuba a b)) < 2 ^ 126).
Proof.
  intros Ha Hb.
  pose proof (canonical_lane a Ha) as Ca. pose proof (canonical_lane b Hb) as Cb.
  destruct a as [a0 a1], b as [b0 b1].
  destruct Ha as [[A0 A0'] [A1 A1']], Hb as [[B0 B0'] [B1 B1']].
  cbn [q0 q1] in *.
  change (to_Z128 {| q0 := a0; q1 := a1 |}) with (Z.lor a0 (Z.shiftl a1 64)).
  change (to_Z128 {| q0 := b0; q1 := b1 |}) with (Z.lor b0 (Z.shiftl b1 64)).
  rewrite (pmul_lanes a0 a1 b0 b1) by assumption.
  unfold gf2p127_mul_karatsuba, _mm_clmulepi64_si128, _mm_unpacklo_epi64,
    _mm_unpackhi_epi64, _mm_slli_si128, _mm_srli_si128, _mm_xor_si128,
    to_Z128, of_Z128.
  change (Z.testbit 16 0) with false. change (Z.testbit 16 4) with true.
  change (Z.testbit 0 0) with false. change (Z.testbit 0 4) with false.
  change (Z.testbit 17 0) with true. change (Z.testbit 17 4) with true.
  change (8 >? 15) with false.
  cbv beta iota zeta delta [q0 q1 fst snd]. change (8 * 8) with 64.
  assert (Z.lxor a0 a1 < 2 ^ 64) by (apply lxor_lt; lia).
  rewrite !clmul64_pmul by auto with nonneg.
  rewrite karatsuba_product by assumption.
  destruct (pmul_range a0 b0 64 64) as [P00 P00']; try lia.
  destruct (pmul_range a0 b1 64 64) as [P01 P01']; try lia.
  destruct (pmul_range a1 b0 64 64) as [P10 P10']; try lia.
  destruct (pmul_range a1 b1 64 64) as [P11 P11']; try lia.
  assert (T11 : a1 < 2 ^ 63 -> b1 < 2 ^ 63 -> pmul a1 b1 < 2 ^ 126)
    by (intros; apply (pmul_lt a1 b1 63 63); lia).
  assert (T01 : b1 < 2 ^ 63 -> pmul a0 b1 < 2 ^ 127)
    by (intros; apply (pmul_lt a0 b1 64 63); lia).
  assert (T10 : a1 < 2 ^ 63 -> pmul a1 b0 < 2 ^ 127)
    by (intros; apply (pmul_lt a1 b0 63 64); lia).
  change (64 + 64) with 128 in *.
  generalize dependent (pmul a0 b0). generalize dependent (pmul a0 b1).
  generalize dependent (pmul a1 b0). generalize dependent (pmul a1 b1).
  intros p11 P11 P11' T11 p10 P10 P10' T10 p01 P01 P01' T01 p00 P00 P00'.
  unfold wf128; cbv beta iota zeta delta [q0 q1 fst snd].
  split; [|split; [|split]].
  - split; (split; [auto 8 with nonneg|]); apply lxor_lt; auto 8 with nonneg.
  - split; (split; [auto 8 with nonneg|]); apply lxor_lt; auto 8 with nonneg.
  - bits.
  - intros Ca' Cb'. specialize (Ca Ca'). specialize (Cb Cb').
    specialize (T11 Ca Cb). specialize (T01 Cb). specialize (T10 Ca).
    bits_lt.
Qed.

(** The second stage removes a multiple of f from a product below [2^254]
    and leaves a value below [2^127]. *)
Lemma reduce_correct lo hi :
  wf128 lo -> wf128 hi -> to_Z128 hi < 2 ^ 126 ->
  wf128 (gf2p127_mul_reduce lo hi) /\
  to_Z128 (gf2p127_mul_reduce lo hi) < 2 ^ 127 /\
  Z.lxor (to_Z128 (gf2p127_mul_reduce lo hi))
         (Z.lxor (to_Z128 lo) (Z.shiftl (to_Z128 hi) 128))
  = pmul (reduce_quotient lo hi) modulus.
Proof.
  intros Hlo Hhi Hb.
  assert (Hh1 : q1 hi < 2 ^ 62).
  { destruct hi as [h0 h1]. unfold wf128, to_Z128 in *. cbn [q0 q1] in *.
    destruct Hhi as [[? ?] [? ?]].
    assert (E : h1 = Z.shiftr (Z.lor h0 (Z.shiftl h1 64)) 64) by bits.
    rewrite E. set (h := Z.lor h0 (Z.shiftl h1 64)) in *.
    assert (0 <= h) by (subst h; auto with nonneg).
    clearbody h. bits_lt. }
  clear Hb.
  assert (Hq : 0 <= reduce_quotient lo hi).
  { unfold reduce_quotient, wf128, to_Z128 in *. auto 8 with nonneg. }
  rewrite pmul_modulus by assumption. clear Hq.
  destruct lo as [l0 l1], hi as [h0 h1].
  unfold wf128 in *; cbn [q0 q1] in *.
  destruct Hlo as [[? ?] [? ?]], Hhi as [[? ?] [? ?]].
  unfold reduce_quotient, gf2p127_mul_reduce, _mm_alignr_epi8, _mm_slli_epi64,
    _mm_srli_epi64, _mm_unpacklo_epi64, _mm_unpackhi_epi64, _mm_xor_si128,
    to_Z128, of_Z128.
  change (1 >? 63) with false. change (63 >? 63) with false.
  cbv beta iota zeta delta [q0 q1 fst snd]. change (8 * 8) with 64.
  split; [|split].
  - split; (split; [auto 12 with nonneg|]); bits_lt.
  - bits_lt.
  - bits.
Qed.

Lemma mul_unfold a b :
  gf2p127_mul a b =
  gf2p127_mul_reduce (fst (gf2p127_mul_karatsuba a b))
                     (snd (gf2p127_mul_karatsuba a b)).
Proof. unfold gf2p127_mul. destruct (gf2p127_mul_karatsuba a b); reflexivity. Qed.

(** The result of [gf2p127_mul] is a canonical element congruent to the
    polynomial product of its arguments. *)
Lemma mul_spec a b :
  wf128 a -> wf128 b -> canonical a -> canonical b ->
  wf128 (gf2p127_mul a b) /\
  0 <= to_Z128 (gf2p127_mul a b) < 2 ^ 127 /\
  pcong (to_Z128 (gf2p127_mul a b)) (pmul (to_Z128 a) (to_Z128 b)).
Proof.
  intros Ha Hb Ca Cb. rewrite mul_unfold.
  destruct (karatsuba_correct a b Ha Hb) as (Wlo & Whi & E & B).
  specialize (B Ca Cb).
  destruct (reduce_correct _ _ Wlo Whi B) as (W & R & Q).
  split; [assumption|]. split.
  - split; [apply to_Z128_range; assumption|assumption].
  - exists (reduce_quotient (fst (gf2p127_mul_karatsuba a b))
                            (snd (gf2p127_mul_karatsuba a b))).
    split.
    + pose proof (to_Z128_range _ Whi). destruct Whi as [[? ?] [? ?]].
      destruct Wlo as [[? ?] [? ?]].
      unfold reduce_quotient. auto 8 with nonneg.
    + rewrite <- E. assumption.
Qed.

Lemma mul_canonical_unique a b r :
  wf128 a -> wf128 b -> canonical a -> canonical b ->
  0 <= r -> r < 2 ^ 127 -> pcong r (pmul (to_Z128 a) (to_Z128 b)) ->
  r = to_Z128 (gf2p127_mul a b).
Proof.
  intros Ha Hb Ca Cb R0 R1 C.
  destruct (mul_spec a b Ha Hb Ca Cb) as (_ & [? ?] & C').
  apply pcong_unique; try assumption.
  apply pcong_trans with (pmul (to_Z128 a) (to_Z128 b));
    [assumption|apply pcong_sym; assumption].
Qed.

(** A register below [2^127] that is congruent to the product is the
    result of [gf2p127_mul]. *)
Lemma mul_characterised a b c :
  wf128 a -> wf128 b -> canonical a -> canonical b ->
  wf128 c -> canonical c ->
  pcong (to_Z128 c) (pmul (to_Z128 a) (to_Z128 b)) ->
  gf2p127_mul a b = c.
Proof.
  intros Ha Hb Ca Cb Hc Cc C.
  destruct (mul_spec a b Ha Hb Ca Cb) as (W & _ & _).
  apply to_Z128_inj; [assumption|assumption|]. symmetry.
  apply mul_canonical_unique; try assumption.
  - apply to_Z128_range; assumption.
  - apply canonical_iff; assumption.
Qed.

End Mul.

(** ** Addition *)

Section Add.

Lemma add_wf a b : wf128 a -> wf128 b -> wf128 (gf2p127_add a b).
Proof.
  intros Ha Hb. lanes a. lanes b. unfold gf2p127_add, _mm_xor_si128.
  cbn [q0 q1]. repeat split; auto with nonneg; apply lxor_lt; lia.
Qed.

Lemma add_value a b : wf128 a -> wf128 b ->
  to_Z128 (gf2p127_add a b) = Z.lxor (to_Z128 a) (to_Z128 b).
Proof.
  intros Ha Hb. lanes a. lanes b. unfold gf2p127_add, _mm_xor_si128.
  cbn [q0 q1]. bits.
Qed.

Lemma add_canonical a b :
  wf128 a -> wf128 b -> canonical a -> canonical b ->
  canonical (gf2p127_add a b).
Proof.
  intros Ha Hb Ca Cb. unfold canonical in *.
  rewrite add_value, Z.lxor_spec, Ca, Cb by assumption. reflexivity.
Qed.

End Add.

(** ** The doubling step *)

Section Double.

(** The top bit of a shifted lane is bit 62 of the lane. *)
Lemma shifted_top_bit y :
  Z.shiftr (Z.shiftl y 1 mod 2 ^ 64) 63 = Z.b2z (Z.testbit y 62).
Proof.
  eapply Z.bits_inj'; intros i Hi. autorewrite with bitsdb.
  destruct (Z.eq_dec i 0) as [->|Hn].
  - change (0 + 63 - 1) with 62. destruct (Z.testbit y 62); reflexivity.
  - replace (i + 63 <? 64) with false by (symmetry; apply Z.ltb_ge; lia).
    replace (i <? 0) with false by (symmetry; apply Z.ltb_ge; lia).
    destruct (Z.testbit y 62); cbn [Z.b2z negb andb].
    + rewrite testbit_1. symmetry. apply Z.eqb_neq. lia.
    + rewrite Z.testbit_0_l. reflexivity.
Qed.

(** The two lanes of [gf2p127_mul_10], with [b] the overflow bit. *)
Lemma mul_10_lanes a : wf128 a ->
  gf2p127_mul_10 a =
  let b := Z.shiftr (Z.shiftl (q1 a) 1 mod 2 ^ 64) 63 in
  mk128 (Z.lxor (Z.lxor (Z.shiftl (q0 a) 1 mod 2 ^ 64) (Z.shiftl b 63)) b)
        (Z.lxor (Z.lor (Z.shiftl (q1 a) 1 mod 2 ^ 64) (Z.shiftr (q0 a) 63))
                (Z.shiftl b 63)).
Proof.
  intros H.
  unfold gf2p127_mul_10, _mm_xor_si128, _mm_shuffle_epi32, dword,
    _mm_or_si128, _mm_slli_si128, _mm_srli_epi64, _mm_slli_epi64,
    to_Z128, of_Z128.
  change (_MM_SHUFFLE 3 2 3 2) with 238.
  change (_MM_SHUFFLE 3 3 3 2) with 254. cbn [q0 q1].
  change (Z.land (Z.shiftr 238 (2 * 0)) 3) with 2.
  change (Z.land (Z.shiftr 238 (2 * 1)) 3) with 3.
  change (Z.land (Z.shiftr 238 (2 * 2)) 3) with 2.
  change (Z.land (Z.shiftr 238 (2 * 3)) 3) with 3.
  change (Z.land (Z.shiftr 254 (2 * 0)) 3) with 2.
  change (Z.land (Z.shiftr 254 (2 * 1)) 3) with 3.
  change (Z.land (Z.shiftr 254 (2 * 2)) 3) with 3.
  change (Z.land (Z.shiftr 254 (2 * 3)) 3) with 3.
  change (32 * 2) with 64. change (32 * 3) with 96.
  change (1 >? 63) with false. change (63 >? 63) with false.
  change (8 >? 15) with false.
  cbv iota. cbn [q0 q1]. change (8 * 8) with 64.
  lanes a. cbv zeta. f_equal; bits.
Qed.

Lemma mul_10_wf a : wf128 a -> wf128 (gf2p127_mul_10 a).
Proof.
  intros H. rewrite mul_10_lanes by assumption. lanes a. cbv zeta.
  split; (split; [auto 8 with nonneg|]); bits_lt.
Qed.

(** Bit 127 of the result is clear, whatever bit 127 of the argument. *)
Lemma mul_10_canonical a : wf128 a -> canonical (gf2p127_mul_10 a).
Proof.
  intros H. rewrite mul_10_lanes by assumption. lanes a. cbv zeta.
  bits_core.
Qed.

Lemma mul_10_double_spec a : wf128 a -> gf2p127_mul_10 a = double_spec a.
Proof.
  intros H. rewrite mul_10_lanes by assumption. unfold double_spec.
  lanes a. cbv zeta.
  replace (Z.testbit (Z.lor x (Z.shiftl y 64)) 126) with (Z.testbit y 62)
    by (autorewrite with bitsdb; rewrite (testbit_high x 64 126) by lia;
        reflexivity).
  rewrite shifted_top_bit.
  destruct (Z.testbit y 62) eqn:E; cbn [Z.b2z].
  - f_equal.
    + bits.
    + change (Z.shiftl 1 63) with (2 ^ 63).
      eapply Z.bits_inj'; intros i Hi.
      destruct (Z.eq_dec i 63) as [->|Hn].
      * rewrite Z.clearbit_eq, Z.lxor_spec, Z.lor_spec,  Z.pow2_bits_true by lia.
        autorewrite with bitsdb. change (63 - 1) with 62. rewrite E. reflexivity.
      * rewrite Z.clearbit_neq, Z.lxor_spec, Z.pow2_bits_false by lia.
        btauto.
  - f_equal; bits.
Qed.

(** A 63-bit lane split at its top bit. *)
Lemma split_bit_62 y : 0 <= y -> y < 2 ^ 63 ->
  y = Z.lor (y mod 2 ^ 62) (if Z.testbit y 62 then 2 ^ 62 else 0).
Proof.
  intros H0 H1. eapply Z.bits_inj'; intros i Hi.
  destruct (Z.eq_dec i 62) as [->|Hn].
  - destruct (Z.testbit y 62); autorewrite with bitsdb; reflexivity.
  - destruct (Z.testbit y 62); bits_core.
Qed.

(** The value of the result: the shifted polynomial, with f added when the
    shift reaches degree 127. *)
Lemma mul_10_value a : wf128 a -> canonical a ->
  to_Z128 (gf2p127_mul_10 a) =
  Z.lxor (Z.shiftl (to_Z128 a) 1)
         (pmul (Z.b2z (Z.testbit (to_Z128 a) 126)) modulus).
Proof.
  intros H C. pose proof (canonical_lane a H C) as C'.
  rewrite mul_10_lanes by assumption.
  destruct a as [x y]. destruct H as [[Hx0 Hx1] [Hy0 _]].
  unfold to_Z128. cbn [q0 q1] in *. cbv zeta. clear C.
  replace (Z.testbit (Z.lor x (Z.shiftl y 64)) 126) with (Z.testbit y 62)
    by (autorewrite with bitsdb; rewrite (testbit_high x 64 126) by lia;
        reflexivity).
  rewrite shifted_top_bit.
  pose proof (split_bit_62 y Hy0 C') as Hy.
  pose proof (mod_pow2_nonneg y 62 ltac:(lia)).
  pose proof (mod_pow2_lt y 62 ltac:(lia)).
  set (y' := y mod 2 ^ 62) in *. clearbody y'. clear Hy0 C'.
  destruct (Z.testbit y 62); cbn [Z.b2z pmul pmul_pos];
    rewrite ?modulus_bits; subst y; bits.
Qed.

Lemma mul_10_pcong a : wf128 a -> canonical a ->
  pcong (to_Z128 (gf2p127_mul_10 a)) (pmul (to_Z128 a) 2).
Proof.
  intros H C. pose proof (to_Z128_range a H).
  change 2 with (2 ^ 1). rewrite pmul_pow2_r, mul_10_value by auto with nonneg.
  exists (Z.b2z (Z.testbit (to_Z128 a) 126)). split.
  - destruct (Z.testbit (to_Z128 a) 126); cbn; lia.
  - bits.
Qed.

End Double.

(** ** Hexadecimal output *)

Section Hex.

Lemma to_int64_unsigned x : 0 <= x -> x < 2 ^ 64 -> to_int64 x mod 2 ^ 64 = x.
Proof.
  intros. unfold to_int64. rewrite Zminus_mod_idemp_l.
  replace (x + 2 ^ 63 - 2 ^ 63) with x by lia. apply Z.mod_small. lia.
Qed.

Lemma to_int64_inj x y :
  0 <= x -> x < 2 ^ 64 -> 0 <= y -> y < 2 ^ 64 ->
  to_int64 x = to_int64 y -> x = y.
Proof.
  intros ? ? ? ? E. rewrite <- (to_int64_unsigned x), <- (to_int64_unsigned y), E by lia.
  reflexivity.
Qed.

Lemma hex_value_digit d : 0 <= d -> d < 16 -> hex_value (digit_char d) = Some d.
Proof.
  intros H0 H1.
  assert (C : d = 0 \/ d = 1 \/ d = 2 \/ d = 3 \/ d = 4 \/ d = 5 \/ d = 6 \/ d = 7 \/
          d = 8 \/ d = 9 \/ d = 10 \/ d = 11 \/ d = 12 \/ d = 13 \/ d = 14 \/ d = 15)
    by lia.
  repeat (destruct C as [->|C]; [reflexivity|]). subst d. reflexivity.
Qed.

Lemma hex_fixed_length n x : List.length (hex_fixed n x) = n.
Proof.
  revert x. induction n as [|n IH]; intros x; cbn [hex_fixed]; [reflexivity|].
  rewrite length_app, IH. cbn. lia.
Qed.

Lemma hex_fixed_digits n x :
  Forall (fun c => exists d, hex_value c = Some d) (hex_fixed n x).
Proof.
  revert x. induction n as [|n IH]; intros x; cbn [hex_fixed]; [constructor|].
  apply Forall_app. split; [apply IH|]. constructor; [|constructor].
  exists (x mod 16). apply hex_value_digit; apply Z.mod_pos_bound; lia.
Qed.

Lemma hex_fixed_zero n : hex_fixed n 0 = List.repeat "0"%char n.
Proof.
  induction n as [|n IH]; cbn [hex_fixed]; [reflexivity|].
  change (0 / 16) with 0. rewrite IH. change (digit_char (0 mod 16)) with "0"%char.
  symmetry. apply repeat_cons.
Qed.

(** Digits beyond the size of the number are zeros. *)
Lemma hex_fixed_pad n m x : 0 <= x -> x < 16 ^ Z.of_nat m ->
  hex_fixed (n + m) x = List.repeat "0"%char n ++ hex_fixed m x.
Proof.
  revert x. induction m as [|m IH]; intros x H0 H1.
  - change (16 ^ Z.of_nat 0) with 1 in H1. assert (x = 0) by lia. subst x.
    rewrite Nat.add_0_r, hex_fixed_zero. cbn [hex_fixed]. rewrite app_nil_r.
    reflexivity.
  - rewrite Nat.add_succ_r. cbn [hex_fixed].
    rewrite Nat2Z.inj_succ, Z.pow_succ_r in H1 by lia.
    rewrite IH, app_assoc; [reflexivity| |].
    + apply Z.div_pos; lia.
    + apply Z.div_lt_upper_bound; lia.
Qed.

(** The digit loop writes the digits of [x], without leading zeros, in front
    of [acc]. *)
Lemma utoa_hex_fixed fuel : forall k x acc,
  0 <= x -> x < 16 ^ Z.of_nat k -> (1 <= k <= fuel)%nat ->
  exists m, (1 <= m <= k)%nat /\ x < 16 ^ Z.of_nat m /\
            utoa fuel 16 x acc = hex_fixed m x ++ acc.
Proof.
  induction fuel as [|fuel IH]; intros k x acc H0 H1 Hk; [lia|].
  cbn [utoa]. destruct (Z.eqb_spec (x / 16) 0) as [E|E].
  - exists 1%nat. split; [lia|]. split; [|reflexivity].
    change (16 ^ Z.of_nat 1) with 16.
    pose proof (Z.div_mod x 16 ltac:(lia)). pose proof (Z.mod_pos_bound x 16). lia.
  - assert (16 <= x).
    { destruct (Z.lt_ge_cases x 16); [|assumption].
      rewrite Z.div_small in E by lia. lia. }
    destruct k as [|[|k]]; [lia| change (16 ^ Z.of_nat 1) with 16 in H1; lia |].
    assert (Hd : x / 16 < 16 ^ Z.of_nat (S k)).
    { rewrite (Nat2Z.inj_succ (S k)), Z.pow_succ_r in H1 by lia.
      apply Z.div_lt_upper_bound; lia. }
    destruct (IH (S k) (x / 16) (digit_char (x mod 16) :: acc)) as (m & Hm & Hx & Eq);
      [apply Z.div_pos; lia | assumption | lia |].
    exists (S m). split; [lia|]. split.
    + rewrite Nat2Z.inj_succ, Z.pow_succ_r by lia.
      pose proof (Z.div_mod x 16 ltac:(lia)). pose proof (Z.mod_pos_bound x 16). lia.
    + rewrite Eq. cbn [hex_fixed]. rewrite <- app_assoc. reflexivity.
Qed.

(** [%.16llx] writes exactly the 16 digits of a 64-bit word. *)
Lemma fmt_llx_16 x : 0 <= x -> x < 2 ^ 64 ->
  fmt_llx 16 (to_int64 x) = hex_fixed 16 x.
Proof.
  intros H0 H1. unfold fmt_llx, zero_pad. rewrite to_int64_unsigned by assumption.
  destruct (utoa_hex_fixed 16 16 x [] H0) as (m & Hm & Hx & Eq);
    [exact H1 | lia |].
  rewrite Eq, app_nil_r, hex_fixed_length.
  replace 16%nat with ((16 - m) + m)%nat at 2 by lia.
  symmetry. apply hex_fixed_pad; assumption.
Qed.

Lemma parse_hex_word_app s t acc :
  parse_hex_word acc (s ++ t) =
  match parse_hex_word acc s with
  | Some v => parse_hex_word v t
  | None => None
  end.
Proof.
  revert acc. induction s as [|c s IH]; intros acc; cbn [parse_hex_word app];
    [reflexivity|].
  destruct (hex_value c); [apply IH|reflexivity].
Qed.

Lemma parse_hex_fixed n : forall x acc, 0 <= x ->
  parse_hex_word acc (hex_fixed n x) =
  Some (acc * 16 ^ Z.of_nat n + x mod 16 ^ Z.of_nat n).
Proof.
  induction n as [|n IH]; intros x acc H0.
  - cbn [hex_fixed parse_hex_word]. change (16 ^ Z.of_nat 0) with 1.
    rewrite Z.mod_1_r. f_equal. lia.
  - cbn [hex_fixed]. rewrite parse_hex_word_app, IH by (apply Z.div_pos; lia).
    cbn [parse_hex_word].
    rewrite hex_value_digit by (apply Z.mod_pos_bound; lia).
    f_equal. rewrite Nat2Z.inj_succ, Z.pow_succ_r by lia.
    rewrite (Z.rem_mul_r x 16 (16 ^ Z.of_nat n)) by
      (try apply Z.pow_pos_nonneg; lia).
    lia.
Qed.

Lemma firstn_skipn_app (s t : list ascii) n : List.length s = n ->
  firstn n (s ++ t) = s /\ skipn n (s ++ t) = t.
Proof.
  revert n. induction s as [|c s IH]; intros n <-; cbn; [auto|].
  destruct (IH (List.length s) eq_refl) as [-> ->]. auto.
Qed.

Lemma hex_lanes a : wf128 a ->
  gf2p127_hex a = hex_fixed 16 (q1 a) ++ hex_fixed 16 (q0 a).
Proof.
  intros [[? ?] [? ?]]. unfold gf2p127_hex, _mm_extract_epi64.
  change (Z.testbit 1 0) with true. change (Z.testbit 0 0) with false.
  cbv iota. rewrite !fmt_llx_16 by assumption. reflexivity.
Qed.

Lemma hex_roundtrip a : wf128 a -> parse_hex (gf2p127_hex a) = Some a.
Proof.
  intros H. rewrite hex_lanes by assumption. destruct H as [[? ?] [? ?]].
  unfold parse_hex. rewrite length_app, !hex_fixed_length.
  change (16 + 16 =? 32)%nat with true. cbv iota.
  destruct (firstn_skipn_app (hex_fixed 16 (q1 a)) (hex_fixed 16 (q0 a)) 16
              (hex_fixed_length _ _)) as [-> ->].
  rewrite !parse_hex_fixed by assumption.
  change (16 ^ Z.of_nat 16) with (2 ^ 64). rewrite !Z.mod_small by lia.
  destruct a; reflexivity.
Qed.

End Hex.

(** ** Polynomial output *)

Section Show.

Lemma list_ascii_eqb_eq (s t : list ascii) :
  (if list_eq_dec ascii_dec s t then true else false) = true -> s = t.
Proof. destruct (list_eq_dec ascii_dec s t); [auto|discriminate]. Qed.

(** [%i] writes the loop counter in decimal. *)
Lemma fmt_i_decimal k : 0 <= k -> k < 128 ->
  fmt_i k =
  list_ascii_of_string (DecimalString.NilZero.string_of_int (Z.to_int k)).
Proof.
  intros H0 H1. apply list_ascii_eqb_eq.
  assert (All : forallb (fun k =>
            if list_eq_dec ascii_dec (fmt_i k)
                 (list_ascii_of_string
                    (DecimalString.NilZero.string_of_int (Z.to_int k)))
            then true else false) (bit_positions 0 128) = true)
    by (vm_compute; reflexivity).
  rewrite forallb_forall in All. apply All.
  unfold bit_positions. apply in_map_iff. exists (Z.to_nat k).
  split; [lia|]. apply in_seq. lia.
Qed.

Lemma bit_positions_succ k n :
  bit_positions k (S n) = k :: bit_positions (k + 1) n.
Proof.
  unfold bit_positions. cbn [seq map]. f_equal; [lia|].
  rewrite <- seq_shift, map_map. apply map_ext. intros. lia.
Qed.

Lemma bit_positions_ge k n j : In j (bit_positions k n) -> k <= j.
Proof.
  unfold bit_positions. rewrite in_map_iff. intros (i & <- & _). lia.
Qed.

Lemma low_bit_test a : negb (Z.land a 1 =? 0) = Z.testbit a 0.
Proof.
  change 1 with (Z.ones 1). rewrite Z.land_ones by lia.
  change (2 ^ 1) with 2. rewrite Z.bit0_odd, Zmod_odd.
  destruct (Z.odd a); reflexivity.
Qed.

(** The loop appends one term for each set bit it visits. *)
Lemma show_loop_spec n : forall k a str, 0 <= k -> k + Z.of_nat n <= 128 ->
  gf2p127_show_loop n k a str =
  str ++ List.concat (map show_term
           (filter (fun j => Z.testbit a (j - k)) (bit_positions k n))).
Proof.
  induction n as [|n IH]; intros k a str Hk Hn.
  - cbn. rewrite app_nil_r. reflexivity.
  - cbn [gf2p127_show_loop]. rewrite IH by lia.
    rewrite bit_positions_succ. cbn [filter].
    rewrite Z.sub_diag, low_bit_test.
    assert (Ext : filter (fun j => Z.testbit (Z.shiftr a 1) (j - (k + 1)))
                    (bit_positions (k + 1) n) =
                  filter (fun j => Z.testbit a (j - k)) (bit_positions (k + 1) n)).
    { apply filter_ext_in. intros j Hj. apply bit_positions_ge in Hj.
      rewrite Z.shiftr_spec by lia. f_equal. lia. }
    rewrite Ext. destruct (Z.testbit a 0); [|reflexivity].
    cbn [map List.concat]. unfold show_term at 2.
    rewrite fmt_i_decimal by lia. rewrite <- !app_assoc. reflexivity.
Qed.

Lemma show_correct a : gf2p127_show a = show_spec a.
Proof.
  unfold gf2p127_show, show_spec. rewrite show_loop_spec by lia.
  rewrite low_bit_test.
  assert (Ext : filter (fun j => Z.testbit (Z.shiftr (to_Z128 a) 1) (j - 1))
                  (bit_positions 1 127) =
                filter (Z.testbit (to_Z128 a)) (bit_positions 1 127)).
  { apply filter_ext_in. intros j Hj. apply bit_positions_ge in Hj.
    rewrite Z.shiftr_spec by lia. f_equal. lia. }
  rewrite Ext. destruct (Z.testbit (to_Z128 a) 0); reflexivity.
Qed.

End Show.

(** ** Long division by f *)

Section LongDivision.

Lemma pmod_step_lt u n : 0 <= u -> 0 <= n -> u < 2 ^ (127 + Z.succ n) ->
  (if Z.testbit u (127 + n) then Z.lxor u (Z.shiftl modulus n) else u)
  < 2 ^ (127 + n).
Proof.
  intros H0 Hn H1. destruct (Z.testbit u (127 + n)) eqn:E.
  - apply bound_of_bits; [|lia|].
    + apply lxor_nonneg; [assumption|]. apply shiftl_nonneg, modulus_nonneg.
    + intros l Hl. rewrite Z.lxor_spec, Z.shiftl_spec by lia.
      destruct (Z.eq_dec l (127 + n)) as [->|Hne].
      * rewrite E. replace (127 + n - n) with 127 by lia. reflexivity.
      * rewrite (testbit_high u (127 + Z.succ n) l) by lia.
        rewrite (testbit_high modulus 128 (l - n)); [reflexivity| | |lia].
        -- apply modulus_nonneg.
        -- reflexivity.
  - apply bound_of_bits; [assumption|lia|]. intros l Hl.
    destruct (Z.eq_dec l (127 + n)) as [->|Hne]; [assumption|].
    apply (testbit_high u (127 + Z.succ n)); lia.
Qed.

Lemma pmod_loop_spec n : forall u, 0 <= u -> u < 2 ^ (127 + Z.of_nat n) ->
  0 <= pmod_loop n u < 2 ^ 127 /\ pcong (pmod_loop n u) u.
Proof.
  induction n as [|n IH]; intros u H0 H1.
  - cbn [pmod_loop]. rewrite Z.add_0_r in H1. split; [lia|apply pcong_refl].
  - cbn [pmod_loop]. rewrite Nat2Z.inj_succ in H1.
    pose proof (pmod_step_lt u (Z.of_nat n) H0 ltac:(lia) H1) as Hlt.
    set (u' := if Z.testbit u (127 + Z.of_nat n)
               then Z.lxor u (Z.shiftl modulus (Z.of_nat n)) else u) in *.
    assert (H0' : 0 <= u').
    { subst u'. destruct (Z.testbit u (127 + Z.of_nat n)); [|assumption].
      apply lxor_nonneg; [assumption|]. apply shiftl_nonneg, modulus_nonneg. }
    destruct (IH u' H0' Hlt) as [R C]. split; [assumption|].
    apply pcong_trans with u'; [assumption|].
    subst u'. destruct (Z.testbit u (127 + Z.of_nat n)); [|apply pcong_refl].
    exists (2 ^ Z.of_nat n). split; [apply Z.pow_nonneg; lia|].
    rewrite pmul_pow2_l by (try apply modulus_nonneg; lia).
    rewrite (Z.lxor_comm u), Z.lxor_assoc, Z.lxor_nilpotent, Z.lxor_0_r.
    reflexivity.
Qed.

(** [pmod u] is the representative of [u] below [2^127]. *)
Lemma pmod_spec u : 0 <= u -> 0 <= pmod u < 2 ^ 127 /\ pcong (pmod u) u.
Proof.
  intros H0. apply pmod_loop_spec; [assumption|].
  destruct (Z.eq_dec u 0) as [->|Hn]; [apply Z.pow_pos_nonneg; lia|].
  pose proof (Z.log2_spec u ltac:(lia)) as [_ Hu].
  apply Z.lt_le_trans with (2 ^ Z.succ (Z.log2 u)); [assumption|].
  apply Z.pow_le_mono_r; lia.
Qed.

End LongDivision.

(** ** Equality and the small constructors *)

Section Basics.

Lemma gf2p127_eq_iff a b : wf128 a -> wf128 b ->
  gf2p127_eq a b = true <-> a = b.
Proof.
  intros [[? ?] [? ?]] [[? ?] [? ?]]. unfold gf2p127_eq, _mm_extract_epi64.
  change (Z.testbit 0 0) with false. change (Z.testbit 1 0) with true. cbv iota.
  rewrite andb_true_iff, !Z.eqb_eq. split.
  - intros [E0 E1]. apply to_int64_inj in E0; try assumption.
    apply to_int64_inj in E1; try assumption.
    destruct a as [a0 a1], b as [b0 b1]; cbn [q0 q1] in *; congruence.
  - intros ->. auto.
Qed.

Lemma from_int_small v : 0 <= v -> v < 2 ^ 31 ->
  gf2p127_from_int v = mk128 v 0.
Proof.
  intros. unfold gf2p127_from_int, _mm_cvtsi32_si128.
  rewrite Z.mod_small by lia. reflexivity.
Qed.

Lemma small_wf v : 0 <= v -> v < 2 ^ 31 -> wf128 (mk128 v 0).
Proof. intros. unfold wf128; cbn [q0 q1]. lia. Qed.

Lemma small_value v : 0 <= v -> to_Z128 (mk128 v 0) = v.
Proof. intros. unfold to_Z128; cbn [q0 q1]. bits. Qed.

Lemma small_canonical v : 0 <= v -> v < 2 ^ 31 -> canonical (mk128 v 0).
Proof.
  intros. unfold canonical. rewrite small_value by assumption.
  apply (testbit_high v 31); lia.
Qed.

Lemma zero_wf : wf128 gf2p127_zero.
Proof. apply (small_wf 0); lia. Qed.

Lemma zero_canonical : canonical gf2p127_zero.
Proof. reflexivity. Qed.

Lemma mul_11_wf a : wf128 a -> wf128 (gf2p127_mul_11 a).
Proof. intros. apply add_wf; [assumption|apply mul_10_wf; assumption]. Qed.

Lemma mul_11_canonical a : wf128 a -> canonical a -> canonical (gf2p127_mul_11 a).
Proof.
  intros. apply add_canonical; try assumption.
  - apply mul_10_wf; assumption.
  - apply mul_10_canonical; assumption.
Qed.

(** Bit 127 of the argument does not reach the result of the doubling. *)
Lemma mul_10_drops_bit127 a : wf128 a ->
  gf2p127_mul_10 a = gf2p127_mul_10 (mk128 (q0 a) (q1 a mod 2 ^ 63)).
Proof.
  intros H.
  assert (H' : wf128 (mk128 (q0 a) (q1 a mod 2 ^ 63))).
  { destruct H as [? [? ?]]. split; [assumption|]. cbn [q1].
    pose proof (Z.mod_pos_bound (q1 a) (2 ^ 63) ltac:(lia)). lia. }
  rewrite !mul_10_lanes by assumption. lanes a. cbv zeta.
  f_equal; bits.
Qed.

End Basics.

(** * Specification theorems *)

(** C1: for canonical [a] and [b] (bit 127 clear), [gf2p127_mul a b] is the
    unique representative in [0, 2^127) that is congruent modulo
    f(x) = x^127 + x^63 + 1 to the carry-less product of [a] and [b]; it is
    the remainder of that product in the long division by f. *)
Theorem gf2p127_mul_correct a b :
  wf128 a -> wf128 b -> canonical a -> canonical b ->
  0 <= to_Z128 (gf2p127_mul a b) < 2 ^ 127 /\
  pcong (to_Z128 (gf2p127_mul a b)) (pmul (to_Z128 a) (to_Z128 b)) /\
  (forall r, 0 <= r < 2 ^ 127 ->
             pcong r (pmul (to_Z128 a) (to_Z128 b)) ->
             r = to_Z128 (gf2p127_mul a b)) /\
  to_Z128 (gf2p127_mul a b) = pmod (pmul (to_Z128 a) (to_Z128 b)).
Proof.
  intros Ha Hb Ca Cb.
  destruct (mul_spec a b Ha Hb Ca Cb) as (W & R & C).
  split; [assumption|]. split; [assumption|]. split.
  - intros r [? ?] Cr. apply mul_canonical_unique; assumption.
  - pose proof (to_Z128_range b Hb) as [? ?].
    destruct (pmod_spec (pmul (to_Z128 a) (to_Z128 b))) as [[? ?] Cm];
      [apply pmul_nonneg; assumption|].
    symmetry. apply mul_canonical_unique; assumption.
Qed.

Lemma gf2p127_mul_correct_witness :
  0 <= to_Z128 (gf2p127_mul (mk128 (2 ^ 64 - 1) (2 ^ 63 - 1)) (mk128 3 (2 ^ 62)))
    < 2 ^ 127 /\
  to_Z128 (gf2p127_mul (mk128 (2 ^ 64 - 1) (2 ^ 63 - 1)) (mk128 3 (2 ^ 62))) =
  pmod (pmul (to_Z128 (mk128 (2 ^ 64 - 1) (2 ^ 63 - 1)))
             (to_Z128 (mk128 3 (2 ^ 62)))).
Proof.
  destruct (gf2p127_mul_correct (mk128 (2 ^ 64 - 1) (2 ^ 63 - 1))
              (mk128 3 (2 ^ 62))) as (R & _ & _ & E).
  - unfold wf128; cbn [q0 q1]; lia.
  - unfold wf128; cbn [q0 q1]; lia.
  - reflexivity.
  - reflexivity.
  - split; assumption.
Defined.

(** C2: for canonical [a], [gf2p127_mul_10 a] is [a] with every coefficient
    moved up one degree (the top bit of the low half entering the bottom of
    the high half) and, exactly when bit 126 of [a] was set, with 1 XORed into
    bits 0 and 63 of the low half and the degree-127 bit cleared; as a
    polynomial it is [x a], plus f when bit 126 was set.  The element with
    only bit 126 set is doubled to the element with bits 0 and 63 set, not to
    the plain left shift. *)
Theorem gf2p127_mul_10_doubles a :
  wf128 a -> canonical a ->
  gf2p127_mul_10 a = double_spec a /\
  to_Z128 (gf2p127_mul_10 a) =
    Z.lxor (Z.shiftl (to_Z128 a) 1)
           (if Z.testbit (to_Z128 a) 126 then modulus else 0) /\
  gf2p127_mul_10 (mk128 0 (2 ^ 62)) = mk128 (2 ^ 63 + 1) 0 /\
  gf2p127_mul_10 (mk128 0 (2 ^ 62)) <> mk128 0 (Z.shiftl (2 ^ 62) 1).
Proof.
  intros H C. split; [apply mul_10_double_spec; assumption|]. split.
  - rewrite mul_10_value by assumption.
    destruct (Z.testbit (to_Z128 a) 126); reflexivity.
  - split; [reflexivity|discriminate].
Qed.

Lemma gf2p127_mul_10_doubles_witness :
  gf2p127_mul_10 (mk128 (2 ^ 63 + 5) (2 ^ 62 + 1)) =
  double_spec (mk128 (2 ^ 63 + 5) (2 ^ 62 + 1)).
Proof.
  apply (gf2p127_mul_10_doubles (mk128 (2 ^ 63 + 5) (2 ^ 62 + 1))).
  - unfold wf128; cbn [q0 q1]; lia.
  - reflexivity.
Defined.

(** C3: for canonical [a] and [b], bit 127 of [gf2p127_add a b] and of
    [gf2p127_mul a b] is 0, and so is bit 127 of the doubling
    [gf2p127_mul_10 a]. *)
Theorem representation_invariant_preserved a b :
  wf128 a -> wf128 b -> canonical a -> canonical b ->
  Z.testbit (to_Z128 (gf2p127_add a b)) 127 = false /\
  Z.testbit (to_Z128 (gf2p127_mul a b)) 127 = false /\
  Z.testbit (to_Z128 (gf2p127_mul_10 a)) 127 = false.
Proof.
  intros Ha Hb Ca Cb. split; [|split].
  - apply add_canonical; assumption.
  - destruct (mul_spec a b Ha Hb Ca Cb) as (W & [_ R] & _).
    apply canonical_iff; assumption.
  - apply mul_10_canonical; assumption.
Qed.

Lemma representation_invariant_preserved_witness :
  Z.testbit (to_Z128 (gf2p127_add (mk128 (2 ^ 64 - 1) (2 ^ 63 - 1))
                                  (mk128 7 (2 ^ 62)))) 127 = false /\
  Z.testbit (to_Z128 (gf2p127_mul (mk128 (2 ^ 64 - 1) (2 ^ 63 - 1))
                                  (mk128 7 (2 ^ 62)))) 127 = false /\
  Z.testbit (to_Z128 (gf2p127_mul_10 (mk128 (2 ^ 64 - 1) (2 ^ 63 - 1)))) 127
    = false.
Proof.
  apply (representation_invariant_preserved (mk128 (2 ^ 64 - 1) (2 ^ 63 - 1))
           (mk128 7 (2 ^ 62))).
  - unfold wf128; cbn [q0 q1]; lia.
  - unfold wf128; cbn [q0 q1]; lia.
  - reflexivity.
  - reflexivity.
Defined.

(** C4: for canonical [a], the general multiplier agrees with the four
    constant multipliers on the constants 0, 1, 2 and 3. *)
Theorem constant_multiplier_consistency a :
  wf128 a -> canonical a ->
  gf2p127_mul a (gf2p127_from_int 0) = gf2p127_mul_00 a /\
  gf2p127_mul a (gf2p127_from_int 1) = gf2p127_mul_01 a /\
  gf2p127_mul a (gf2p127_from_int 2) = gf2p127_mul_10 a /\
  gf2p127_mul a (gf2p127_from_int 3) = gf2p127_mul_11 a.
Proof.
  intros H C. pose proof (to_Z128_range a H) as [A0 A1].
  rewrite !from_int_small by lia.
  assert (K : forall v c, 0 <= v -> v < 2 ^ 31 -> wf128 c -> canonical c ->
                pcong (to_Z128 c) (pmul (to_Z128 a) v) ->
                gf2p127_mul a (mk128 v 0) = c).
  { intros v c V0 V1 Wc Cc P. apply mul_characterised; try assumption.
    - apply small_wf; assumption.
    - apply small_canonical; assumption.
    - rewrite small_value by assumption. assumption. }
  split; [|split; [|split]]; apply K; try lia.
  - apply zero_wf.
  - apply zero_canonical.
  - rewrite pmul_0_r. apply pcong_refl.
  - assumption.
  - assumption.
  - unfold gf2p127_mul_01. rewrite pmul_1_r by assumption. apply pcong_refl.
  - apply mul_10_wf; assumption.
  - apply mul_10_canonical; assumption.
  - apply mul_10_pcong; assumption.
  - apply mul_11_wf; assumption.
  - apply mul_11_canonical; assumption.
  - change (gf2p127_mul_11 a) with (gf2p127_add a (gf2p127_mul_10 a)).
    rewrite add_value by (try apply mul_10_wf; assumption).
    change 3 with (Z.lxor 1 2). rewrite pmul_lxor_r, pmul_1_r by assumption.
    apply pcong_lxor; [apply pcong_refl|apply mul_10_pcong; assumption].
Qed.

Lemma constant_multiplier_consistency_witness :
  gf2p127_mul (mk128 (2 ^ 64 - 1) (2 ^ 63 - 1)) (gf2p127_from_int 2) =
  gf2p127_mul_10 (mk128 (2 ^ 64 - 1) (2 ^ 63 - 1)) /\
  gf2p127_mul (mk128 (2 ^ 64 - 1) (2 ^ 63 - 1)) (gf2p127_from_int 3) =
  gf2p127_mul_11 (mk128 (2 ^ 64 - 1) (2 ^ 63 - 1)).
Proof.
  destruct (constant_multiplier_consistency (mk128 (2 ^ 64 - 1) (2 ^ 63 - 1)))
    as (_ & _ & E2 & E3).
  - unfold wf128; cbn [q0 q1]; lia.
  - reflexivity.
  - split; assumption.
Defined.

(** C5: [gf2p127_mul_bit a false] is the zero element and
    [gf2p127_mul_bit a true] is [a]: the gate selects between [gf2p127_mul_00]
    and [gf2p127_mul_01]. *)
Theorem mul_bit_gating a :
  wf128 a ->
  gf2p127_mul_bit a false = gf2p127_zero /\
  gf2p127_mul_bit a true = a /\
  gf2p127_mul_bit a false = gf2p127_mul_00 a /\
  gf2p127_mul_bit a true = gf2p127_mul_01 a /\
  gf2p127_eq (gf2p127_mul_bit a false) gf2p127_zero = true /\
  gf2p127_eq (gf2p127_mul_bit a true) a = true.
Proof.
  intros H.
  assert (F : gf2p127_mul_bit a false = gf2p127_zero) by reflexivity.
  assert (T : gf2p127_mul_bit a true = a).
  { destruct a as [x y]. destruct H as [[? ?] [? ?]]. cbn [q0 q1] in *.
    unfold gf2p127_mul_bit, _mm_slli_epi64. cbn [negb Z.b2z q0 q1].
    change (0 * 64 >? 63) with false. cbv iota. change (0 * 64) with 0.
    rewrite !Z.shiftl_0_r, !Z.mod_small by lia. reflexivity. }
  rewrite F, T. repeat split; try reflexivity.
  apply gf2p127_eq_iff; auto.
Qed.

Lemma mul_bit_gating_witness :
  gf2p127_mul_bit (mk128 (2 ^ 64 - 1) (2 ^ 63 + 9)) false = gf2p127_zero /\
  gf2p127_mul_bit (mk128 (2 ^ 64 - 1) (2 ^ 63 + 9)) true =
  mk128 (2 ^ 64 - 1) (2 ^ 63 + 9).
Proof.
  destruct (mul_bit_gating (mk128 (2 ^ 64 - 1) (2 ^ 63 + 9))) as (F & T & _).
  - unfold wf128; cbn [q0 q1]; lia.
  - split; assumption.
Defined.

(** C6: for canonical [a], [b] and [c], multiplication distributes over
    addition. *)
Theorem mul_distributes_over_add a b c :
  wf128 a -> wf128 b -> wf128 c ->
  canonical a -> canonical b -> canonical c ->
  gf2p127_mul a (gf2p127_add b c) =
  gf2p127_add (gf2p127_mul a b) (gf2p127_mul a c).
Proof.
  intros Ha Hb Hc Ca Cb Cc.
  destruct (mul_spec a b Ha Hb Ca Cb) as (Wb & [_ Rb] & Pb).
  destruct (mul_spec a c Ha Hc Ca Cc) as (Wc & [_ Rc] & Pc).
  apply mul_characterised; try assumption.
  - apply add_wf; assumption.
  - apply add_canonical; assumption.
  - apply add_wf; assumption.
  - apply add_canonical; try assumption; apply canonical_iff; assumption.
  - rewrite !add_value, pmul_lxor_r by assumption.
    apply pcong_lxor; assumption.
Qed.

Lemma mul_distributes_over_add_witness :
  gf2p127_mul (mk128 (2 ^ 64 - 1) (2 ^ 63 - 1))
              (gf2p127_add (mk128 7 (2 ^ 62)) (mk128 (2 ^ 63) 12345)) =
  gf2p127_add
    (gf2p127_mul (mk128 (2 ^ 64 - 1) (2 ^ 63 - 1)) (mk128 7 (2 ^ 62)))
    (gf2p127_mul (mk128 (2 ^ 64 - 1) (2 ^ 63 - 1)) (mk128 (2 ^ 63) 12345)).
Proof.
  apply (mul_distributes_over_add (mk128 (2 ^ 64 - 1) (2 ^ 63 - 1))
           (mk128 7 (2 ^ 62)) (mk128 (2 ^ 63) 12345)).
  - unfold wf128; cbn [q0 q1]; lia.
  - unfold wf128; cbn [q0 q1]; lia.
  - unfold wf128; cbn [q0 q1]; lia.
  - reflexivity.
  - reflexivity.
  - reflexivity.
Defined.

(** C7: [gf2p127_hex a] is exactly 32 hexadecimal characters, the 16
    zero-padded digits of the high half followed by the 16 zero-padded digits
    of the low half, and reading these 32 digits back as (high, low) words
    gives [a] again. *)
Theorem hex_roundtrip_32 a :
  wf128 a ->
  List.length (gf2p127_hex a) = 32%nat /\
  Forall (fun c => exists d, hex_value c = Some d) (gf2p127_hex a) /\
  gf2p127_hex a = hex_fixed 16 (q1 a) ++ hex_fixed 16 (q0 a) /\
  parse_hex (gf2p127_hex a) = Some a.
Proof.
  intros H. split; [|split; [|split]].
  - rewrite hex_lanes, length_app, !hex_fixed_length by assumption. reflexivity.
  - rewrite hex_lanes by assumption.
    apply Forall_app. split; apply hex_fixed_digits.
  - apply hex_lanes; assumption.
  - apply hex_roundtrip; assumption.
Qed.

Lemma hex_roundtrip_32_witness :
  gf2p127_hex (mk128 255 (2 ^ 63 + 1)) =
    list_ascii_of_string "800000000000000100000000000000ff" /\
  parse_hex (gf2p127_hex (mk128 255 (2 ^ 63 + 1))) =
    Some (mk128 255 (2 ^ 63 + 1)).
Proof.
  destruct (hex_roundtrip_32 (mk128 255 (2 ^ 63 + 1))) as (_ & _ & E & R).
  - unfold wf128; cbn [q0 q1]; lia.
  - split; [rewrite E; reflexivity|assumption].
Defined.

(** C8: for a non-negative [int] [v], [gf2p127_from_int v] is the element
    whose low bits are those of [v] and whose other bits are zero; no
    reduction takes place, the value being below the modulus. *)
Theorem from_int_lifts v :
  0 <= v < 2 ^ 31 ->
  gf2p127_from_int v = mk128 v 0 /\
  to_Z128 (gf2p127_from_int v) = v /\
  (forall i, Z.testbit (to_Z128 (gf2p127_from_int v)) i = Z.testbit v i) /\
  v < modulus /\
  canonical (gf2p127_from_int v).
Proof.
  intros [H0 H1]. rewrite from_int_small, small_value by assumption.
  split; [reflexivity|]. split; [reflexivity|]. split; [reflexivity|]. split.
  - apply Z.lt_trans with (2 ^ 31); [assumption|reflexivity].
  - apply small_canonical; assumption.
Qed.

Lemma from_int_lifts_witness :
  gf2p127_from_int 2147483647 = mk128 2147483647 0 /\
  to_Z128 (gf2p127_from_int 2147483647) = 2147483647.
Proof.
  destruct (from_int_lifts 2147483647) as (E & V & _).
  - lia.
  - split; assumption.
Defined.

(** C9: [gf2p127_show a] starts with "1" when bit 0 of [a] is set and with
    "0" otherwise, followed by " + 2^k" for each set bit [k >= 1], in
    increasing order of [k]. *)
Theorem show_renders_powers a : gf2p127_show a = show_spec a.
Proof. apply show_correct. Qed.

(** C10: for every register [a], also with bit 127 set, bit 127 of
    [gf2p127_mul_10 a] is 0: the shift of the high half drops bit 127 of the
    argument, and the compensation cancels the bit 126 that was shifted up. *)
Theorem mul_10_clears_bit127 a :
  wf128 a ->
  Z.testbit (to_Z128 (gf2p127_mul_10 a)) 127 = false /\
  gf2p127_mul_10 a = gf2p127_mul_10 (mk128 (q0 a) (q1 a mod 2 ^ 63)).
Proof.
  intros H. split.
  - apply mul_10_canonical; assumption.
  - apply mul_10_drops_bit127; assumption.
Qed.

Lemma mul_10_clears_bit127_witness :
  Z.testbit (to_Z128 (mk128 (2 ^ 64 - 1) (2 ^ 64 - 1))) 127 = true /\
  Z.testbit (to_Z128 (gf2p127_mul_10 (mk128 (2 ^ 64 - 1) (2 ^ 64 - 1)))) 127
    = false.
Proof.
  split; [reflexivity|].
  apply (mul_10_clears_bit127 (mk128 (2 ^ 64 - 1) (2 ^ 64 - 1))).
  unfold wf128; cbn [q0 q1]; lia.
Defined.

(** * Concrete vectors *)

Example hex_of_one :
  gf2p127_hex (gf2p127_from_int 1) =
  list_ascii_of_string "00000000000000000000000000000001".
Proof. reflexivity. Qed.

Example show_of_sample :
  gf2p127_show (mk128 5 (2 ^ 63 + 1)) =
  list_ascii_of_string "1 + 2^2 + 2^64 + 2^127".
Proof. reflexivity. Qed.

Example double_of_bit_126 :
  gf2p127_mul_10 (mk128 0 (2 ^ 62)) = mk128 (Z.lor 1 (2 ^ 63)) 0.
Proof. reflexivity. Qed.

Example mul_of_sample :
  gf2p127_mul (mk128 (2 ^ 64 - 1) (2 ^ 63 - 1)) (mk128 (2 ^ 64 - 1) (2 ^ 63 - 1)) =
  mk128 15372286728091293013 4611686018427387903.
Proof. reflexivity. Qed.
